(** * The dashboard data store (dashboard/src/context/data.tsx)

    A shallow embedding of the store of the Garden dashboard: four
    slices [config], [status], [graph] and [logs], each a
    [{data, error, loading}] object, the copy-on-write [updateSlice],
    and the actions that [useApi] builds around React's [useState]. *)

From stdpp Require Import base option list gmap.

(** ** Slice names

    [type SliceName = keyof Store]: the four string literals
    ["config"], ["status"], ["graph"], ["logs"]. *)

Inductive SliceName := k_config | k_status | k_graph | k_logs.

#[global] Instance SliceName_eq_dec : EqDecision SliceName.
Proof. solve_decision. Defined.

Definition sliceNames : list SliceName := [k_config; k_status; k_graph; k_logs].

(** ** The shape of the store

    [interface Store { config; status; graph; logs }]. The record is
    parametric in what a field holds: slice values for the store as a
    value, locations for the store as an object on the heap. *)

Record StoreOf (A : Type) := mkStore {
  config : A;
  status : A;
  graph : A;
  logs : A;
}.
Arguments mkStore {A} _ _ _ _.
Arguments config {A} _.
Arguments status {A} _.
Arguments graph {A} _.
Arguments logs {A} _.

(** [s[key]] *)
#[global] Instance store_lookup_total {A} : LookupTotal SliceName A (StoreOf A) :=
  fun key s =>
    match key with
    | k_config => config s
    | k_status => status s
    | k_graph => graph s
    | k_logs => logs s
    end.

(** [{ ...s, [key]: a }] *)
#[global] Instance store_insert {A} : Insert SliceName A (StoreOf A) :=
  fun key a s =>
    match key with
    | k_config => mkStore a (status s) (graph s) (logs s)
    | k_status => mkStore (config s) a (graph s) (logs s)
    | k_graph => mkStore (config s) (status s) a (logs s)
    | k_logs => mkStore (config s) (status s) (graph s) a
    end.

Section Store.

(** The response types of [../api/types] and the values a fetch can fail
    with are opaque to this file. A response is an object or an array,
    so a non-null [data] is truthy in JavaScript. *)
Context {Resp Err : Type}.

(** [interface StoreSlice { error; loading }] extended with [data]. *)
Record StoreSlice := mkSlice {
  data : option Resp;
  error : option Err;
  loading : bool;
}.

Definition Store : Type := StoreOf StoreSlice.

(** The [sliceState] argument of [updateSlice]: an object holding any
    subset of the three fields. [None] is an absent field; a present
    [data] or [error] may itself be [null]. *)
Record SliceState := mkSliceState {
  has_data : option (option Resp);
  has_error : option (option Err);
  has_loading : option bool;
}.

(** [{ ...prevSliceState, ...sliceState }] *)
Definition spread (prevSliceState : StoreSlice) (sliceState : SliceState) : StoreSlice :=
  {| data := default (data prevSliceState) (has_data sliceState);
     error := default (error prevSliceState) (has_error sliceState);
     loading := default (loading prevSliceState) (has_loading sliceState) |}.

(** [const state = { data: null, loading: false, error: null }], one
    fresh object per slice name. *)
Definition initialState : Store :=
  let state := {| data := None; error := None; loading := false |} in
  mkStore state state state state.

Definition updateSlice (prevState : Store) (key : SliceName) (sliceState : SliceState) : Store :=
  let prevSliceState := prevState !!! key in
  <[key := spread prevSliceState sliceState]> prevState.

(** The object literals the source passes to [updateSlice]. *)
Definition loading_is (b : bool) : SliceState :=
  {| has_data := None; has_error := None; has_loading := Some b |}.
Definition data_is (res : Resp) : SliceState :=
  {| has_data := Some (Some res); has_error := Some None; has_loading := None |}.
Definition error_is (error : Err) : SliceState :=
  {| has_data := None; has_error := Some (Some error); has_loading := None |}.

(** ** React's state cell and the JavaScript around it

    [const [store, setData] = useState<Store>(initialState)]. React
    keeps the state in a cell of its own. Each render runs [useApi]
    again: it binds [store] to the value of the cell at that render and
    creates actions that close over that binding.
    [setData(updater)] replaces the value of the cell by
    [updater(value)]; updaters run in the order they were queued, each
    on the result of the one before, so the cell is modelled as
    updated at once. *)
Record World := mkWorld {
  cell : Store;                (* the value React holds *)
  past : list Store;           (* the values the cell held before, newest first *)
  renders : list Store;        (* [store] of each render so far, newest first *)
  awaiting : list SliceName;   (* the [fetch] calls suspended at [await] *)
  calls : list SliceName;      (* the invocations of a fetch function, oldest first *)
}.

(** Every value the cell has held, newest first. *)
Definition history (w : World) : list Store := cell w :: past w.

(** How a piece of JavaScript completes: normally with a value, or by
    throwing. For a promise: fulfilled with a value, or rejected. *)
Inductive Completion (A : Type) :=
  | Normal (a : A)
  | Throw (e : Err).
Arguments Normal {A} _.
Arguments Throw {A} _.

(** A computation over the world that may throw. *)
Definition Js (A : Type) : Type := World -> Completion A * World.

#[local] Instance Js_ret : MRet Js := fun A a w => (Normal a, w).
#[local] Instance Js_bind : MBind Js := fun A B f m w =>
  match m w with
  | (Normal a, w') => f a w'
  | (Throw e, w') => (Throw e, w')
  end.

(** [try { body } catch (error) { handler }] *)
Definition try_catch {A} (body : Js A) (handler : Err -> Js A) : Js A := fun w =>
  match body w with
  | (Throw e, w') => handler e w'
  | r => r
  end.

(** [setData(updater)] *)
Definition setData (updater : Store -> Store) : Js unit := fun w =>
  (Normal tt,
   {| cell := updater (cell w); past := cell w :: past w; renders := renders w;
      awaiting := awaiting w; calls := calls w |}).

(** A fetch function at one invocation: it returns a promise, or it
    throws before it returns one. *)
Inductive FetchFn :=
  | Returns
  | Throws (e : Err).

Definition KeyActionPair : Type := SliceName * FetchFn.

(** [fetchFn()]: the invocation is counted, then the function returns
    or throws. *)
Definition invoke (key : SliceName) (fetchFn : FetchFn) : Js unit := fun w =>
  let w' := {| cell := cell w; past := past w; renders := renders w;
               awaiting := awaiting w; calls := calls w ++ [key] |} in
  match fetchFn with
  | Returns => (Normal tt, w')
  | Throws e => (Throw e, w')
  end.

(** [await promise], first half: the function is parked until the
    promise settles. *)
Definition suspend (key : SliceName) : Js unit := fun w =>
  (Normal tt,
   {| cell := cell w; past := past w; renders := renders w;
      awaiting := awaiting w ++ [key]; calls := calls w |}).

(** [await promise], second half: the settled promise gives its value
    or throws its reason. *)
Definition settled {A} (c : Completion A) : Js A := fun w => (c, w).

(** Calling an [async] function: what its body throws rejects the
    promise it returns, and the call itself completes normally.
    [Normal tt] stands for a promise that is not rejected. *)
Definition async (body : Js unit) : Js (Completion unit) := fun w =>
  let (c, w') := body w in (Normal c, w').

(** [promise.catch(onRejected)] *)
Definition promise_catch (promise : Completion unit) (onRejected : Err -> Js unit) : Js unit :=
  match promise with
  | Normal _ => mret tt
  | Throw error => onRejected error
  end.

(** [data || loading] as a condition: a response is truthy, [null] is
    not. *)
Definition truthy (d : option Resp) : bool :=
  match d with Some _ => true | None => false end.

(** ** [useApi]

    The functions [useApi] defines. Those that mention [store] take it
    as their first argument: the binding of the render that created
    them. *)

(** The body of [fetch] from the point where [fetchFn()] has thrown or
    the awaited promise has settled: the rest of the [try], the
    [catch], and the statement after them. *)
Definition fetch_resume (key : SliceName) (c : Completion Resp) : Js unit :=
  try_catch
    (res ← settled c;
     setData (fun prevState => updateSlice prevState key (data_is res)))
    (fun error => setData (fun prevState => updateSlice prevState key (error_is error)));;
  setData (fun prevState => updateSlice prevState key (loading_is false)).

(** The object that continuation passes to its first [updateSlice], by
    outcome. *)
Definition outcome (c : Completion Resp) : SliceState :=
  match c with
  | Normal res => data_is res
  | Throw error => error_is error
  end.

(** The body of [fetch] up to its [await]. When [fetchFn()] throws, no
    [await] is reached and the rest of the body runs at once. *)
Definition fetch (keyActionPair : KeyActionPair) : Js unit :=
  let '(key, fetchFn) := keyActionPair in
  setData (fun prevState => updateSlice prevState key (loading_is true));;
  try_catch
    (invoke key fetchFn;; suspend key)
    (fun error => fetch_resume key (Throw error)).

(** The handler of [fetch(keyActionPair).catch(...)]. *)
Definition onRejected (key : SliceName) (error : Err) : Js unit :=
  setData (fun prevState => updateSlice prevState key (error_is error)).

Definition fetchOrReadFromStore (store : Store) (keyActionPair : KeyActionPair)
    (force : bool) : Js unit :=
  let key := keyActionPair.1 in
  let data := data (store !!! key) in
  let loading := loading (store !!! key) in
  if negb force && (truthy data || loading) then mret tt
  else
    promise ← async (fetch keyActionPair);
    promise_catch promise (onRejected key).

(** The test of [fetchOrReadFromStore], for stating when it returns
    early: [!force && (data || loading)]. *)
Definition cached (store : Store) (key : SliceName) (force : bool) : bool :=
  negb force && (truthy (data (store !!! key)) || loading (store !!! key)).

(** The four actions. The fetch function each one is bound to is an
    import of the module; here the caller says how it behaves at this
    invocation. [force] defaults to [false] at the call site. *)
Definition loadLogs (store : Store) (fetchLogs : FetchFn) (force : bool) : Js unit :=
  fetchOrReadFromStore store (k_logs, fetchLogs) force.
Definition loadConfig (store : Store) (fetchConfig : FetchFn) (force : bool) : Js unit :=
  fetchOrReadFromStore store (k_config, fetchConfig) force.
Definition loadGraph (store : Store) (fetchGraph : FetchFn) (force : bool) : Js unit :=
  fetchOrReadFromStore store (k_graph, fetchGraph) force.
Definition loadStatus (store : Store) (fetchStatus : FetchFn) (force : bool) : Js unit :=
  fetchOrReadFromStore store (k_status, fetchStatus) force.

(** [actions] of the render that bound [store], by slice. *)
Definition actions (store : Store) (key : SliceName) : FetchFn -> bool -> Js unit :=
  match key with
  | k_config => loadConfig store
  | k_status => loadStatus store
  | k_graph => loadGraph store
  | k_logs => loadLogs store
  end.

(** What one call of [useApi] returns, given the [store] that
    [useState] hands it: [{ store, actions }]. *)
Definition useApi (store : Store) : Store * (SliceName -> FetchFn -> bool -> Js unit) :=
  (store, actions store).

(** ** The event loop

    One event is one JavaScript job, run to completion: a caller
    invokes an action of the [r]-th latest render (0 is the latest; a
    caller may still hold the actions of an older one); [DataProvider]
    renders again and calls [useApi]; or the promise awaited by the [n]-th suspended [fetch]
    settles and the function continues, its own promise still carrying
    the [.catch] handler. An event that names no render or no
    suspended fetch does nothing. *)
Inductive Event :=
  | Load (r : nat) (key : SliceName) (fetchFn : FetchFn) (force : bool)
  | Render
  | Settle (n : nat) (c : Completion Resp).

Definition load (r : nat) (key : SliceName) (fetchFn : FetchFn) (force : bool) : Js unit :=
  fun w =>
    match renders w !! r with
    | None => (Normal tt, w)
    | Some store => (useApi store).2 key fetchFn force w
    end.

Definition render : Js unit := fun w =>
  (Normal tt,
   {| cell := cell w; past := past w; renders := cell w :: renders w;
      awaiting := awaiting w; calls := calls w |}).

Definition settle (n : nat) (c : Completion Resp) : Js unit := fun w =>
  match awaiting w !! n with
  | None => (Normal tt, w)
  | Some key =>
      (promise ← async (fetch_resume key c);
       promise_catch promise (onRejected key))
        {| cell := cell w; past := past w; renders := renders w;
           awaiting := delete n (awaiting w); calls := calls w |}
  end.

Definition exec (ev : Event) : Js unit :=
  match ev with
  | Load r key fetchFn force => load r key fetchFn force
  | Render => render
  | Settle n c => settle n c
  end.

Definition step (ev : Event) (w : World) : World := (exec ev w).2.

Definition run (evs : list Event) (w : World) : World := foldl (fun w ev => step ev w) w evs.

(** The provider has mounted: first render, nothing fetched yet. *)
Definition init : World :=
  {| cell := initialState; past := []; renders := [initialState];
     awaiting := []; calls := [] |}.

Definition reachable (w : World) : Prop := exists evs, run evs init = w.

(** One store replacement never pairs changed data with an error. *)
Definition replaces_well (old new : Store) : Prop :=
  forall key, data (new !!! key) <> data (old !!! key) -> error (new !!! key) = None.

(** A history, newest first, in which every replacement is of that kind. *)
Fixpoint well_replaced (h : list Store) : Prop :=
  match h with
  | new :: (old :: _) as h' => replaces_well old new /\ well_replaced h'
  | _ => True
  end.

(** ** The store as objects

    For what [updateSlice] allocates and what it shares: a heap of
    objects, a store object holding a reference to each of its slice
    objects. *)
Definition loc := positive.

Inductive Obj :=
  | SliceObj (s : StoreSlice)
  | StoreObj (refs : StoreOf loc).

Definition alloc (o : Obj) (h : gmap loc Obj) : loc * gmap loc Obj :=
  let l := fresh (dom h) in (l, <[l := o]> h).

(** [updateSlice] on the heap: [prevState[key]] is read, the merged
    slice and the new store are two new objects, and the spread of
    [prevState] copies its references. *)
Definition updateSlice_heap (h : gmap loc Obj) (prevState : loc) (key : SliceName)
    (sliceState : SliceState) : option (loc * gmap loc Obj) :=
  match h !! prevState with
  | Some (StoreObj refs) =>
      match h !! (refs !!! key) with
      | Some (SliceObj prevSliceState) =>
          let (l, h1) := alloc (SliceObj (spread prevSliceState sliceState)) h in
          Some (alloc (StoreObj (<[key := l]> refs)) h1)
      | _ => None
      end
  | _ => None
  end.

Definition read_slice (h : gmap loc Obj) (l : loc) : option StoreSlice :=
  match h !! l with
  | Some (SliceObj s) => Some s
  | _ => None
  end.

(** The store value an object denotes. *)
Definition read (h : gmap loc Obj) (l : loc) : option Store :=
  match h !! l with
  | Some (StoreObj refs) =>
      c ← read_slice h (config refs);
      s ← read_slice h (status refs);
      g ← read_slice h (graph refs);
      l ← read_slice h (logs refs);
      Some (mkStore c s g l)
  | _ => None
  end.

(** ** The initial state, as the source builds it

    [sliceNames.reduce((acc, key) => { const state = ...; acc[key] =
    state; return acc }, {}) as Store]: the accumulator starts as the
    empty object and gains the key of each step. The reduce is taken
    over any list of names, [sliceNames] being the one of the source. *)
Definition initialState_of (names : list SliceName) : StoreOf (option StoreSlice) :=
  foldl
    (fun acc key =>
       let state := {| data := None; loading := false; error := None |} in
       <[key := Some state]> acc)
    (mkStore None None None None)
    names.

(** [... as Store] is an unchecked cast; the object is a [Store] when
    each of the four keys is present. *)
Definition as_Store (o : StoreOf (option StoreSlice)) : option Store :=
  c ← config o; s ← status o; g ← graph o; l ← logs o; Some (mkStore c s g l).

(** ** Partials, composed *)

(** [{}] *)
Definition no_fields : SliceState :=
  {| has_data := None; has_error := None; has_loading := None |}.

(** [{ ...first, ...second }] on partials. *)
Definition spread_partial (first second : SliceState) : SliceState :=
  {| has_data := match has_data second with Some d => Some d | None => has_data first end;
     has_error := match has_error second with Some e => Some e | None => has_error first end;
     has_loading :=
       match has_loading second with Some b => Some b | None => has_loading first end |}.

(** ** Events, measured *)

(** The slice an event works on, if any: the slice of the action that
    is called, or of the fetch whose promise settles. *)
Definition target (w : World) (ev : Event) : option SliceName :=
  match ev with
  | Load r key _ _ => Some key
  | Render => None
  | Settle n _ => awaiting w !! n
  end.

(** How many of the events are calls of an action. *)
Fixpoint loads (evs : list Event) : nat :=
  match evs with
  | [] => 0
  | Load _ _ _ _ :: evs => S (loads evs)
  | _ :: evs => loads evs
  end.

(** ** [updateSlice] *)

Lemma lookup_insert_store_eq {A} (s : StoreOf A) (key : SliceName) (a : A) :
  <[key := a]> s !!! key = a.
Proof. by destruct key. Qed.

Lemma lookup_insert_store_ne {A} (s : StoreOf A) (key k : SliceName) (a : A) :
  k <> key -> <[key := a]> s !!! k = s !!! k.
Proof. by destruct key, k. Qed.

Lemma updateSlice_eq (prevState : Store) key sliceState :
  updateSlice prevState key sliceState !!! key = spread (prevState !!! key) sliceState.
Proof. apply lookup_insert_store_eq. Qed.

Lemma updateSlice_ne (prevState : Store) key k sliceState :
  k <> key -> updateSlice prevState key sliceState !!! k = prevState !!! k.
Proof. apply lookup_insert_store_ne. Qed.

(** C4. [updateSlice] returns the input store with the named slice
    replaced by the shallow merge of its previous state and the
    partial: a field the partial has takes the partial's value, a
    field it lacks keeps its previous value, and the other slices are
    those of the input. *)
Theorem updateSlice_shallow_merge (prevState : Store) (key : SliceName) (sliceState : SliceState) :
  let newState := updateSlice prevState key sliceState in
  data (newState !!! key) =
    match has_data sliceState with Some d => d | None => data (prevState !!! key) end
  /\ error (newState !!! key) =
    match has_error sliceState with Some e => e | None => error (prevState !!! key) end
  /\ loading (newState !!! key) =
    match has_loading sliceState with Some b => b | None => loading (prevState !!! key) end
  /\ forall k, k <> key -> newState !!! k = prevState !!! k.
Proof.
  intros newState. subst newState. rewrite updateSlice_eq.
  repeat split; try (by destruct sliceState as [[?|] [?|] [?|]]).
  intros k Hk. by apply updateSlice_ne.
Qed.

(** ** Sharing *)

Lemma read_slice_weaken (h h' : gmap loc Obj) l s :
  h ⊆ h' -> read_slice h l = Some s -> read_slice h' l = Some s.
Proof.
  unfold read_slice. intros Hsub Hl.
  destruct (h !! l) as [o|] eqn:E; [|done].
  by rewrite (lookup_weaken _ _ _ _ E Hsub).
Qed.

Lemma read_weaken (h h' : gmap loc Obj) l S :
  h ⊆ h' -> read h l = Some S -> read h' l = Some S.
Proof.
  unfold read. intros Hsub Hl.
  destruct (h !! l) as [[?|refs]|] eqn:E; try done.
  rewrite (lookup_weaken _ _ _ _ E Hsub).
  destruct (read_slice h (config refs)) as [c|] eqn:Ec; [|done].
  destruct (read_slice h (status refs)) as [s|] eqn:Es; [|done].
  destruct (read_slice h (graph refs)) as [g|] eqn:Eg; [|done].
  destruct (read_slice h (logs refs)) as [lg|] eqn:El; [|done].
  rewrite (read_slice_weaken _ _ _ _ Hsub Ec), (read_slice_weaken _ _ _ _ Hsub Es),
    (read_slice_weaken _ _ _ _ Hsub Eg), (read_slice_weaken _ _ _ _ Hsub El).
  done.
Qed.

Lemma alloc_fresh (o : Obj) (h : gmap loc Obj) :
  h !! (alloc o h).1 = None.
Proof. simpl. apply not_elem_of_dom, is_fresh. Qed.

Lemma alloc_extends (o : Obj) (h : gmap loc Obj) :
  h ⊆ (alloc o h).2.
Proof. simpl. apply insert_subseteq, (alloc_fresh o). Qed.

(** C5. [updateSlice] changes no object that exists when it is called,
    so the input store still reads as before, and the store it returns
    is a new object whose references to the three slices other than the
    named one are the references of the input store; it denotes the
    value the function on store values computes. *)
Theorem updateSlice_heap_shares (h : gmap loc Obj) (prevState : loc) (refs : StoreOf loc)
    (key : SliceName) (sliceState : SliceState) (prevSliceState : StoreSlice) :
  h !! prevState = Some (StoreObj refs) ->
  h !! (refs !!! key) = Some (SliceObj prevSliceState) ->
  exists newState h' refs',
    updateSlice_heap h prevState key sliceState = Some (newState, h')
    /\ h' !! newState = Some (StoreObj refs')
    /\ (forall k, k <> key -> refs' !!! k = refs !!! k)
    /\ (forall l o, h !! l = Some o -> h' !! l = Some o)
    /\ h !! newState = None
    /\ h !! (refs' !!! key) = None
    /\ h' !! (refs' !!! key) = Some (SliceObj (spread prevSliceState sliceState))
    /\ forall S, read h prevState = Some S ->
         read h' prevState = Some S
         /\ read h' newState = Some (updateSlice S key sliceState).
Proof.
  intros Hstore Hslice. unfold updateSlice_heap. rewrite Hstore, Hslice.
  set (o1 := SliceObj (spread prevSliceState sliceState)).
  destruct (alloc o1 h) as [l1 h1] eqn:E1.
  set (o2 := StoreObj (<[key := l1]> refs)).
  destruct (alloc o2 h1) as [l2 h2] eqn:E2.
  assert (Hl1 : h !! l1 = None) by (pose proof (alloc_fresh o1 h) as F; by rewrite E1 in F).
  assert (Hl2 : h1 !! l2 = None) by (pose proof (alloc_fresh o2 h1) as F; by rewrite E2 in F).
  assert (Hh1 : h1 = <[l1 := o1]> h) by (unfold alloc in E1; congruence).
  assert (Hh2 : h2 = <[l2 := o2]> h1) by (unfold alloc in E2; congruence).
  assert (S1 : h ⊆ h1) by (pose proof (alloc_extends o1 h) as F; by rewrite E1 in F).
  assert (S2 : h1 ⊆ h2) by (pose proof (alloc_extends o2 h1) as F; by rewrite E2 in F).
  assert (S12 : h ⊆ h2) by (by etrans).
  assert (Hnew : h2 !! l1 = Some o1).
  { apply (lookup_weaken h1); [|done]. subst h1. apply lookup_insert_eq. }
  exists l2, h2, (<[key := l1]> refs). split_and!.
  - done.
  - subst h2. apply lookup_insert_eq.
  - intros k Hk. by apply lookup_insert_store_ne.
  - intros l o Hl. by apply (lookup_weaken h).
  - destruct (h !! l2) eqn:E; [|done].
    rewrite (lookup_weaken _ _ _ _ E S1) in Hl2. done.
  - by rewrite lookup_insert_store_eq.
  - by rewrite lookup_insert_store_eq.
  - intros S HS. split; [by apply (read_weaken h)|].
    unfold read in HS. rewrite Hstore in HS.
    destruct (read_slice h (config refs)) as [c|] eqn:Ec; [|done].
    destruct (read_slice h (status refs)) as [s|] eqn:Es; [|done].
    destruct (read_slice h (graph refs)) as [g|] eqn:Eg; [|done].
    destruct (read_slice h (logs refs)) as [lg|] eqn:El; [|done].
    simpl in HS. injection HS as <-.
    pose proof (read_slice_weaken _ _ _ _ S12 Ec) as Rc.
    pose proof (read_slice_weaken _ _ _ _ S12 Es) as Rs.
    pose proof (read_slice_weaken _ _ _ _ S12 Eg) as Rg.
    pose proof (read_slice_weaken _ _ _ _ S12 El) as Rl.
    assert (Rn : read_slice h2 l1 = Some (spread prevSliceState sliceState))
      by (unfold read_slice; by rewrite Hnew).
    assert (Hp : read_slice h (refs !!! key) = Some prevSliceState)
      by (unfold read_slice; by rewrite Hslice).
    unfold read. replace (h2 !! l2) with (Some o2) by (subst h2; by rewrite lookup_insert_eq).
    subst o2. unfold updateSlice.
    destruct key; simpl in *;
      unfold lookup_total, store_lookup_total in *; simpl in *;
      rewrite ?Rc, ?Rs, ?Rg, ?Rl, ?Rn; simpl; repeat f_equal; congruence.
Qed.

(** ** The jobs of the event loop, computed *)

Lemma actions_eq (store : Store) (key : SliceName) (fetchFn : FetchFn) (force : bool) :
  actions store key fetchFn force = fetchOrReadFromStore store (key, fetchFn) force.
Proof. by destruct key. Qed.

(** The test holds on the store of the render: nothing happens. *)
Lemma action_skips (store : Store) (w : World) key fetchFn force :
  cached store key force = true ->
  actions store key fetchFn force w = (Normal tt, w).
Proof.
  intros H. unfold cached in H. rewrite actions_eq. unfold fetchOrReadFromStore. simpl.
  by rewrite H.
Qed.

(** The test fails and [fetchFn()] returns a promise. *)
Lemma action_starts (store : Store) (w : World) key force :
  cached store key force = false ->
  actions store key Returns force w =
    (Normal tt,
     {| cell := updateSlice (cell w) key (loading_is true);
        past := cell w :: past w;
        renders := renders w;
        awaiting := awaiting w ++ [key];
        calls := calls w ++ [key] |}).
Proof.
  intros H. unfold cached in H. rewrite actions_eq. unfold fetchOrReadFromStore. simpl.
  by rewrite H.
Qed.

(** The test fails and [fetchFn()] throws. *)
Lemma action_throws (store : Store) (w : World) key force E :
  cached store key force = false ->
  actions store key (Throws E) force w =
    let s1 := updateSlice (cell w) key (loading_is true) in
    let s2 := updateSlice s1 key (error_is E) in
    (Normal tt,
     {| cell := updateSlice s2 key (loading_is false);
        past := s2 :: s1 :: cell w :: past w;
        renders := renders w;
        awaiting := awaiting w;
        calls := calls w ++ [key] |}).
Proof.
  intros H. unfold cached in H. rewrite actions_eq. unfold fetchOrReadFromStore. simpl.
  by rewrite H.
Qed.

Lemma load_runs (w : World) r store key fetchFn force :
  renders w !! r = Some store ->
  exec (Load r key fetchFn force) w = actions store key fetchFn force w.
Proof. intros H. simpl. unfold load. by rewrite H. Qed.

Lemma load_idle (w : World) r key fetchFn force :
  renders w !! r = None ->
  exec (Load r key fetchFn force) w = (Normal tt, w).
Proof. intros H. simpl. unfold load. by rewrite H. Qed.

Lemma settle_runs (w : World) n key c :
  awaiting w !! n = Some key ->
  exec (Settle n c) w =
    let s2 := updateSlice (cell w) key (outcome c) in
    (Normal tt,
     {| cell := updateSlice s2 key (loading_is false);
        past := s2 :: cell w :: past w;
        renders := renders w;
        awaiting := delete n (awaiting w);
        calls := calls w |}).
Proof.
  intros H. simpl. unfold settle. rewrite H. by destruct c.
Qed.

Lemma settle_idle (w : World) n c :
  awaiting w !! n = None -> exec (Settle n c) w = (Normal tt, w).
Proof. intros H. simpl. unfold settle. by rewrite H. Qed.

Lemma run_snoc (evs : list Event) (ev : Event) (w : World) :
  run (evs ++ [ev]) w = step ev (run evs w).
Proof. unfold run. by rewrite foldl_app. Qed.

Lemma reachable_ind' (P : World -> Prop) :
  P init ->
  (forall w ev, reachable w -> P w -> P (step ev w)) ->
  forall w, reachable w -> P w.
Proof.
  intros Hinit Hstep w [evs <-].
  induction evs as [|ev evs IH] using rev_ind; [done|].
  rewrite run_snoc. apply Hstep; [by exists evs | done].
Qed.

(** Starting a fetch and settling it at once, from any world. *)
Lemma load_then_settle (w0 : World) r store key force c :
  renders w0 !! r = Some store ->
  cached store key force = false ->
  run [Load r key Returns force; Settle (length (awaiting w0)) c] w0 =
    let s1 := updateSlice (cell w0) key (loading_is true) in
    let s2 := updateSlice s1 key (outcome c) in
    {| cell := updateSlice s2 key (loading_is false);
       past := s2 :: s1 :: cell w0 :: past w0;
       renders := renders w0;
       awaiting := awaiting w0;
       calls := calls w0 ++ [key] |}.
Proof.
  intros Hr Htest.
  change (run [Load r key Returns force; Settle (length (awaiting w0)) c] w0)
    with (step (Settle (length (awaiting w0)) c) (step (Load r key Returns force) w0)).
  unfold step at 2. rewrite (load_runs _ _ _ _ _ _ Hr), (action_starts _ _ _ _ Htest).
  unfold step. erewrite settle_runs.
  - simpl. f_equal. by rewrite delete_middle, app_nil_r.
  - simpl. by rewrite lookup_app_r, Nat.sub_diag.
Qed.

(** ** The cache policy *)

(** The guard as the code evaluates it, on [store], the store of the
    render that created the action: the action invokes the fetch
    function exactly when [force] is true, or that store has the slice
    with null data and not loading; otherwise it invokes nothing and
    changes nothing. Nothing ties [store] to the state React holds
    when the action is called. *)
Theorem load_fetches_iff (store : Store) (w : World) (key : SliceName) (fetchFn : FetchFn)
    (force : bool) :
  let w' := (actions store key fetchFn force w).2 in
  (calls w' = calls w ++ [key] <->
     force = true \/ (data (store !!! key) = None /\ loading (store !!! key) = false))
  /\ (calls w' = calls w ++ [key] \/ calls w' = calls w)
  /\ (force = false ->
      data (store !!! key) <> None \/ loading (store !!! key) = true ->
      w' = w /\ calls w' = calls w).
Proof.
  intros w'. subst w'.
  destruct (cached store key force) eqn:Htest.
  - rewrite (action_skips _ _ _ _ _ Htest). simpl. unfold cached in Htest.
    apply andb_true_iff in Htest as [Hf Hdl]. apply negb_true_iff in Hf. subst force.
    split_and!; [|by right|done]. split.
    + intros Hc. apply (f_equal length) in Hc. rewrite length_app in Hc. simpl in Hc. lia.
    + intros [?|[Hd Hl]]; [done|]. rewrite Hd, Hl in Hdl. done.
  - assert (Hcalls : calls (actions store key fetchFn force w).2 = calls w ++ [key]).
    { destruct fetchFn;
        [by rewrite (action_starts _ _ _ _ Htest)|by rewrite (action_throws _ _ _ _ _ Htest)]. }
    unfold cached in Htest. split_and!; [|by left|].
    + split; [|done]. intros _.
      destruct force; [by left|right]. simpl in Htest.
      apply orb_false_iff in Htest as [Hd Hl]. split; [|done].
      by destruct (data (store !!! key)).
    + intros -> Hor. simpl in Htest. apply orb_false_iff in Htest as [Hd Hl].
      destruct Hor as [Hn|Ht]; [|congruence].
      by destruct (data (store !!! key)).
Qed.

(** C1. The guard does not see the state of the store at the call.
    After [loadConfig()] on the first render the config slice of the
    store is loading, with null data; a second unforced [loadConfig()]
    on the same render's action invokes the fetch function again and
    replaces the store, where the policy asks for no invocation and
    no change. *)
Theorem load_on_same_render_ignores_loading :
  let w := step (Load 0 k_config Returns false) init in
  reachable w
  /\ cell w !!! k_config = {| data := None; error := None; loading := true |}
  /\ calls w = [k_config]
  /\ calls (step (Load 0 k_config Returns false) w) = [k_config; k_config]
  /\ awaiting (step (Load 0 k_config Returns false) w) = [k_config; k_config]
  /\ history (step (Load 0 k_config Returns false) w) = cell w :: history w.
Proof.
  intros w. split; [by exists [Load 0 k_config Returns false]|]. by split_and!.
Qed.

(** ** One fetch, from call to settlement *)

(** C2. When the promise awaited by a fetch for a slice resolves with
    [V], the slice is [{data: V, error: null, loading: false}] once the
    continuation has run, whatever it held before. The same holds from
    a load that starts the fetch when the resolution follows at once. *)
Theorem fetch_resolved_slice (w : World) (n : nat) (key : SliceName) (V : Resp) :
  awaiting w !! n = Some key ->
  cell (step (Settle n (Normal V)) w) !!! key
    = {| data := Some V; error := None; loading := false |}
  /\ forall w0 r store force,
       renders w0 !! r = Some store ->
       cached store key force = false ->
       cell (run [Load r key Returns force; Settle (length (awaiting w0)) (Normal V)] w0) !!! key
       = {| data := Some V; error := None; loading := false |}.
Proof.
  intros H. split.
  - unfold step. rewrite (settle_runs _ _ _ _ H). simpl. by rewrite !updateSlice_eq.
  - intros w0 r store force Hr Htest. rewrite (load_then_settle _ _ _ _ _ _ Hr Htest).
    simpl. by rewrite !updateSlice_eq.
Qed.

(** C3. When the promise awaited by a fetch for a slice rejects with
    [E], the slice ends with the data it had, error [E] and loading
    false: the error branch writes no data. From the load that starts
    the fetch to the rejection, and when the fetch function throws
    instead of returning a promise, the data is the data from before
    the fetch. *)
Theorem fetch_rejected_slice (w : World) (n : nat) (key : SliceName) (E : Err) :
  awaiting w !! n = Some key ->
  cell (step (Settle n (Throw E)) w) !!! key
    = {| data := data (cell w !!! key); error := Some E; loading := false |}
  /\ (forall w0 r store force,
        renders w0 !! r = Some store ->
        cached store key force = false ->
        cell (run [Load r key Returns force; Settle (length (awaiting w0)) (Throw E)] w0) !!! key
        = {| data := data (cell w0 !!! key); error := Some E; loading := false |})
  /\ (forall w0 r store force,
        renders w0 !! r = Some store ->
        cached store key force = false ->
        cell (step (Load r key (Throws E) force) w0) !!! key
        = {| data := data (cell w0 !!! key); error := Some E; loading := false |}).
Proof.
  intros H. split_and!.
  - unfold step. rewrite (settle_runs _ _ _ _ H). simpl. by rewrite !updateSlice_eq.
  - intros w0 r store force Hr Htest. rewrite (load_then_settle _ _ _ _ _ _ Hr Htest).
    simpl. by rewrite !updateSlice_eq.
  - intros w0 r store force Hr Htest. unfold step.
    rewrite (load_runs _ _ _ _ _ _ Hr), (action_throws _ _ _ _ _ Htest). simpl.
    by rewrite !updateSlice_eq.
Qed.

(** C7. A fetch makes exactly three store replacements, in program
    order. The load that starts it makes the first: the slice gets
    loading true and keeps its data and error. When the awaited
    promise settles, the continuation makes the second, which writes
    the outcome and leaves loading as it is (data [V] and error null
    on success, the error [E] beside the data as it was on failure),
    and then the third, which sets loading to false and keeps the
    data and error of the second. No replacement touches another
    slice. When the settlement follows the load at once the three are
    the whole of what the history gains, and so they are when the
    fetch function throws and all three are made in one job. *)
Theorem fetch_three_updates (w0 w : World) (r n : nat) (store : Store) (key : SliceName)
    (force : bool) (c : Completion Resp) (E : Err) :
  renders w0 !! r = Some store ->
  cached store key force = false ->
  awaiting w !! n = Some key ->
  let written (now : StoreSlice) (flag : bool) : StoreSlice :=
    match c with
    | Normal V => {| data := Some V; error := None; loading := flag |}
    | Throw E' => {| data := data now; error := Some E'; loading := flag |}
    end in
  exists s1,
    s1 !!! key
      = {| data := data (cell w0 !!! key); error := error (cell w0 !!! key); loading := true |}
    /\ (forall k, k <> key -> s1 !!! k = cell w0 !!! k)
    /\ history (step (Load r key Returns force) w0) = s1 :: history w0
    /\ (exists s2 s3,
          history (step (Settle n c) w) = s3 :: s2 :: history w
          /\ s2 !!! key = written (cell w !!! key) (loading (cell w !!! key))
          /\ s3 !!! key = written (cell w !!! key) false
          /\ forall k, k <> key -> s2 !!! k = cell w !!! k /\ s3 !!! k = cell w !!! k)
    /\ (exists s2 s3,
          history (run [Load r key Returns force; Settle (length (awaiting w0)) c] w0)
            = s3 :: s2 :: s1 :: history w0
          /\ s2 !!! key = written (cell w0 !!! key) true
          /\ s3 !!! key = written (cell w0 !!! key) false
          /\ forall k, k <> key -> s2 !!! k = cell w0 !!! k /\ s3 !!! k = cell w0 !!! k)
    /\ (exists s2 s3,
          history (step (Load r key (Throws E) force) w0) = s3 :: s2 :: s1 :: history w0
          /\ s2 !!! key
             = {| data := data (cell w0 !!! key); error := Some E; loading := true |}
          /\ s3 !!! key
             = {| data := data (cell w0 !!! key); error := Some E; loading := false |}
          /\ forall k, k <> key -> s2 !!! k = cell w0 !!! k /\ s3 !!! k = cell w0 !!! k).
Proof.
  intros Hr Htest Hn written.
  exists (updateSlice (cell w0) key (loading_is true)). split_and!.
  - by rewrite updateSlice_eq.
  - intros k Hk. by rewrite updateSlice_ne.
  - unfold step. by rewrite (load_runs _ _ _ _ _ _ Hr), (action_starts _ _ _ _ Htest).
  - unfold step. rewrite (settle_runs _ _ _ _ Hn). unfold history. simpl.
    do 2 eexists. split; [reflexivity|]. subst written. simpl. split_and!.
    + rewrite updateSlice_eq. by destruct c.
    + rewrite !updateSlice_eq. by destruct c.
    + intros k Hk. by rewrite !updateSlice_ne.
  - rewrite (load_then_settle _ _ _ _ _ _ Hr Htest). unfold history. simpl.
    do 2 eexists. split; [reflexivity|]. subst written. simpl. split_and!.
    + rewrite !updateSlice_eq. by destruct c.
    + rewrite !updateSlice_eq. by destruct c.
    + intros k Hk. by rewrite !updateSlice_ne.
  - unfold step. rewrite (load_runs _ _ _ _ _ _ Hr), (action_throws _ _ _ _ _ Htest).
    unfold history. simpl. do 2 eexists. split; [reflexivity|]. split_and!.
    + by rewrite !updateSlice_eq.
    + by rewrite !updateSlice_eq.
    + intros k Hk. by rewrite !updateSlice_ne.
Qed.

(** ** Errors *)


(** ** Invariants of the reachable worlds *)

Lemma elem_of_delete_other (l : list SliceName) (n : nat) (key k : SliceName) :
  l !! n = Some key -> k <> key -> k ∈ l -> k ∈ delete n l.
Proof.
  revert n. induction l as [|x l IH]; intros n Hn Hk Hin; [done|].
  destruct n as [|n]; simpl in *.
  - injection Hn as ->. apply elem_of_cons in Hin as [?|?]; done.
  - apply elem_of_cons in Hin as [->|Hin]; [by left|].
    right. by apply IH.
Qed.

(** Whatever an action does, it keeps this invariant. *)
Lemma actions_keep_in_flight (store : Store) (w : World) key fetchFn force :
  (forall k, loading (cell w !!! k) = true -> k ∈ awaiting w) ->
  forall k, loading (cell (actions store key fetchFn force w).2 !!! k) = true ->
            k ∈ awaiting (actions store key fetchFn force w).2.
Proof.
  intros IH k.
  destruct (cached store key force) eqn:Htest.
  { rewrite (action_skips _ _ _ _ _ Htest). apply IH. }
  destruct fetchFn as [|E].
  - rewrite (action_starts _ _ _ _ Htest). simpl.
    destruct (decide (k = key)) as [->|Hk]; [set_solver|].
    rewrite updateSlice_ne by done. intros Hl. apply elem_of_app. left. by apply IH.
  - rewrite (action_throws _ _ _ _ _ Htest). simpl.
    destruct (decide (k = key)) as [->|Hk].
    { by rewrite !updateSlice_eq. }
    rewrite !updateSlice_ne by done. apply IH.
Qed.

(** C9. In every reachable world a slice whose loading flag is true
    has a fetch in flight. When the promise a fetch awaits settles,
    with either outcome, the continuation clears the flag in exactly
    one of its two store replacements, the last, and the fetch is no
    longer in flight: the flag is false when the job ends. In the
    stores a job writes before its last one, a slice that is loading
    has a suspended fetch or is the slice of the fetch whose body is
    running. *)
Theorem loading_tracks_in_flight :
  (forall w, reachable w ->
     forall key, loading (cell w !!! key) = true -> key ∈ awaiting w)
  /\ (forall w, reachable w ->
        forall n key c k,
          awaiting w !! n = Some key ->
          loading (updateSlice (cell w) key (outcome c) !!! k) = true ->
          k = key \/ k ∈ delete n (awaiting w))
  /\ (forall w, reachable w ->
        forall key E k s,
          s ∈ [updateSlice (cell w) key (loading_is true);
               updateSlice (updateSlice (cell w) key (loading_is true)) key (error_is E)] ->
          loading (s !!! k) = true ->
          k = key \/ k ∈ awaiting w)
  /\ (forall w n key c,
        awaiting w !! n = Some key ->
        let w' := step (Settle n c) w in
        loading (cell w' !!! key) = false
        /\ awaiting w' = delete n (awaiting w)
        /\ exists s2,
             history w' = updateSlice s2 key (loading_is false) :: s2 :: history w
             /\ loading (s2 !!! key) = loading (cell w !!! key)).
Proof.
  assert (Hinv : forall w, reachable w ->
                   forall key, loading (cell w !!! key) = true -> key ∈ awaiting w);
    [|split_and!; [exact Hinv|..]].
  - apply (reachable_ind' (fun w => forall key, loading (cell w !!! key) = true -> key ∈ awaiting w)).
    + intros key. by destruct key.
    + intros w ev _ IH k. unfold step.
      destruct ev as [r key fetchFn force| |n c].
      * destruct (renders w !! r) as [store|] eqn:Hr.
        { rewrite (load_runs _ _ _ _ _ _ Hr). by apply actions_keep_in_flight. }
        rewrite (load_idle _ _ _ _ _ Hr). apply IH.
      * simpl. apply IH.
      * destruct (awaiting w !! n) as [key|] eqn:Hn.
        2:{ rewrite (settle_idle _ _ _ Hn). apply IH. }
        rewrite (settle_runs _ _ _ _ Hn). simpl.
        destruct (decide (k = key)) as [->|Hk].
        { by rewrite !updateSlice_eq. }
        rewrite !updateSlice_ne by done. intros Hl.
        apply (elem_of_delete_other _ _ key); [done..|]. by apply IH.
  - intros w Hw n key c k Hn Hl.
    destruct (decide (k = key)) as [->|Hk]; [by left|right].
    rewrite updateSlice_ne in Hl by done.
    apply (elem_of_delete_other _ _ key); [done..|]. by apply Hinv.
  - intros w Hw key E k s Hs Hl.
    destruct (decide (k = key)) as [->|Hk]; [by left|right].
    apply Hinv; [done|].
    apply elem_of_cons in Hs as [->|Hs];
      [|apply list_elem_of_singleton in Hs as ->];
      by rewrite !updateSlice_ne in Hl by done.
  - intros w n key c Hn w'. subst w'. unfold step. rewrite (settle_runs _ _ _ _ Hn). simpl.
    split_and!.
    + by rewrite !updateSlice_eq.
    + done.
    + eexists. split; [done|]. rewrite updateSlice_eq. by destruct c.
Qed.

Lemma updateSlice_replaces_well (s : Store) key sliceState :
  has_data sliceState = None \/ has_error sliceState = Some None ->
  replaces_well s (updateSlice s key sliceState).
Proof.
  intros Hp k Hd. destruct (decide (k = key)) as [->|Hk].
  - rewrite updateSlice_eq in *. destruct Hp as [Hp|Hp]; simpl in *; rewrite Hp in *; done.
  - by rewrite updateSlice_ne in Hd.
Qed.

Lemma well_replaced_cons (old new : Store) (h : list Store) :
  replaces_well old new -> well_replaced (old :: h) -> well_replaced (new :: old :: h).
Proof. intros H1 H2. by split. Qed.

Lemma actions_keep_well_replaced (store : Store) (w : World) key fetchFn force :
  well_replaced (history w) ->
  well_replaced (history (actions store key fetchFn force w).2).
Proof.
  intros IH.
  destruct (cached store key force) eqn:Htest.
  { by rewrite (action_skips _ _ _ _ _ Htest). }
  destruct fetchFn as [|E].
  - rewrite (action_starts _ _ _ _ Htest).
    apply well_replaced_cons; [|exact IH]. apply updateSlice_replaces_well. by left.
  - rewrite (action_throws _ _ _ _ _ Htest).
    repeat (apply well_replaced_cons; [apply updateSlice_replaces_well; by left|]).
    exact IH.
Qed.

(** C10. On success the new data and the null error reach the store
    in one replacement: the first store the continuation writes
    already has both. In every reachable world, no replacement in the
    history of the store changed a slice's data and left the slice
    with an error. *)
Theorem data_replaced_with_error_cleared :
  (forall w n key V,
     awaiting w !! n = Some key ->
     exists s2 s3,
       history (step (Settle n (Normal V)) w) = s3 :: s2 :: history w
       /\ s2 = updateSlice (cell w) key (data_is V)
       /\ data (s2 !!! key) = Some V /\ error (s2 !!! key) = None
       /\ data (s3 !!! key) = Some V /\ error (s3 !!! key) = None)
  /\ (forall w, reachable w -> well_replaced (history w)).
Proof.
  split.
  - intros w n key V Hn. unfold step. rewrite (settle_runs _ _ _ _ Hn). simpl.
    do 2 eexists. split; [done|]. split; [done|]. simpl. rewrite !updateSlice_eq.
    by split_and!.
  - apply (reachable_ind' (fun w => well_replaced (history w))); [done|].
    intros w ev _ IH. unfold step.
    destruct ev as [r key fetchFn force| |n c].
    + destruct (renders w !! r) as [store|] eqn:Hr.
      * rewrite (load_runs _ _ _ _ _ _ Hr). by apply actions_keep_well_replaced.
      * by rewrite (load_idle _ _ _ _ _ Hr).
    + exact IH.
    + destruct (awaiting w !! n) as [key|] eqn:Hn.
      2:{ by rewrite (settle_idle _ _ _ Hn). }
      rewrite (settle_runs _ _ _ _ Hn).
      apply well_replaced_cons; [apply updateSlice_replaces_well; by left|].
      apply well_replaced_cons; [|exact IH].
      apply updateSlice_replaces_well. destruct c; [by right|by left].
Qed.

(** ** Two calls of one render *)

(** C6. [loadConfig(); loadConfig()] on the actions of the first
    render, the first call's fetch still pending: both calls read the
    same [store], in which the slice is not loading, and both invoke
    the fetch function. *)
Theorem loadConfig_twice_same_render :
  calls (run [Load 0 k_config Returns false; Load 0 k_config Returns false] init)
    = [k_config; k_config]
  /\ awaiting (run [Load 0 k_config Returns false; Load 0 k_config Returns false] init)
    = [k_config; k_config].
Proof. done. Qed.

(** The same from any world, for any slice: two unforced calls on the
    actions of one render whose store has the slice empty and idle
    invoke the fetch function twice. *)
Lemma load_twice_same_render (w : World) r store key :
  renders w !! r = Some store ->
  cached store key false = false ->
  calls (run [Load r key Returns false; Load r key Returns false] w) = calls w ++ [key; key].
Proof.
  intros Hr Htest.
  change (run [Load r key Returns false; Load r key Returns false] w)
    with (step (Load r key Returns false) (step (Load r key Returns false) w)).
  unfold step at 2. rewrite (load_runs _ _ _ _ _ _ Hr), (action_starts _ _ _ _ Htest).
  unfold step. erewrite load_runs by exact Hr.
  rewrite (action_starts _ _ _ _ Htest). simpl. by rewrite <- app_assoc.
Qed.

(** With a render between the two calls, the second call made on the
    actions of that render, the second call reads the loading flag the
    first one set and does nothing. *)
Lemma load_after_render_skips (w : World) r store key fetchFn force :
  renders w !! r = Some store ->
  cached store key force = false ->
  run [Load r key Returns force; Render; Load 0 key fetchFn false] w
    = run [Load r key Returns force; Render] w
  /\ calls (run [Load r key Returns force; Render; Load 0 key fetchFn false] w)
     = calls w ++ [key].
Proof.
  intros Hr Htest.
  change (run [Load r key Returns force; Render; Load 0 key fetchFn false] w)
    with (step (Load 0 key fetchFn false) (step Render (step (Load r key Returns force) w))).
  change (run [Load r key Returns force; Render] w)
    with (step Render (step (Load r key Returns force) w)).
  assert (Hfirst : step (Load r key Returns force) w
                   = (actions store key Returns force w).2)
    by (unfold step; by rewrite (load_runs _ _ _ _ _ _ Hr)).
  rewrite Hfirst, (action_starts _ _ _ _ Htest). simpl.
  match goal with |- context [step Render ?x] => set (w1 := x) end.
  assert (Hskip : step (Load 0 key fetchFn false) (step Render w1) = step Render w1).
  { unfold step at 1. erewrite load_runs by (simpl; reflexivity).
    rewrite action_skips; [done|].
    unfold cached. simpl. rewrite updateSlice_eq. simpl. apply orb_true_r. }
  by rewrite Hskip.
Qed.

(** ** The initial state *)

Lemma initialState_of_snoc (names : list SliceName) (key : SliceName) :
  initialState_of (names ++ [key])
  = <[key := Some {| data := None; error := None; loading := false |}]> (initialState_of names).
Proof. unfold initialState_of. by rewrite foldl_snoc. Qed.

Lemma initialState_of_lookup (names : list SliceName) (key : SliceName) :
  initialState_of names !!! key
  = if decide (key ∈ names) then Some {| data := None; error := None; loading := false |}
    else None.
Proof.
  induction names as [|k names IH] using rev_ind.
  - rewrite decide_False by set_solver. by destruct key.
  - rewrite initialState_of_snoc. destruct (decide (key = k)) as [->|Hk].
    + rewrite lookup_insert_store_eq. by rewrite decide_True by set_solver.
    + rewrite lookup_insert_store_ne by done. rewrite IH.
      destruct (decide (key ∈ names)) as [Hin|Hnin].
      * rewrite decide_True; [done|]. apply elem_of_app. by left.
      * rewrite decide_False; [done|].
        intros [?|Hx%list_elem_of_singleton]%elem_of_app; done.
Qed.

Lemma as_Store_Some (o : StoreOf (option StoreSlice)) (S : Store) :
  as_Store o = Some S <-> forall key, o !!! key = Some (S !!! key).
Proof.
  destruct o as [c s g l], S as [c' s' g' l']. unfold as_Store. simpl. split.
  - destruct c, s, g, l; simpl; try done. intros [= -> -> -> ->] key. by destruct key.
  - intros H.
    pose proof (H k_config) as Hc. pose proof (H k_status) as Hs.
    pose proof (H k_graph) as Hg. pose proof (H k_logs) as Hl.
    unfold lookup_total, store_lookup_total in *. simpl in *. by subst.
Qed.

(** X1. The reduce that builds the initial state yields an object
    that is a [Store] exactly when the list of names covers every
    slice name; whenever it is one, every slice is
    [{data: null, loading: false, error: null}]. [sliceNames] covers
    them, so the cast of the source is sound. *)
Theorem initialState_cast_sound :
  (forall names, is_Some (as_Store (initialState_of names)) <-> forall key, key ∈ names)
  /\ (forall names S, as_Store (initialState_of names) = Some S -> S = initialState)
  /\ as_Store (initialState_of sliceNames) = Some initialState
  /\ (forall key, initialState !!! key = {| data := None; error := None; loading := false |}).
Proof.
  assert (Hall : forall names S,
            as_Store (initialState_of names) = Some S ->
            forall key, key ∈ names
                        /\ S !!! key = {| data := None; error := None; loading := false |}).
  { intros names S HS key. pose proof (proj1 (as_Store_Some _ _) HS key) as Hkey.
    rewrite initialState_of_lookup in Hkey. case_decide; [|done]. split; [done|congruence]. }
  split_and!.
  - intros names. split.
    + intros [S HS] key. by apply (Hall names S).
    + intros Hcover. exists initialState. apply as_Store_Some. intros key.
      rewrite initialState_of_lookup, decide_True by done. by destruct key.
  - intros names [c s g l] HS.
    pose proof (Hall _ _ HS k_config) as [_ Hc]. pose proof (Hall _ _ HS k_status) as [_ Hs].
    pose proof (Hall _ _ HS k_graph) as [_ Hg]. pose proof (Hall _ _ HS k_logs) as [_ Hl].
    unfold lookup_total, store_lookup_total in *. simpl in *. by subst.
  - done.
  - intros key. by destruct key.
Qed.

(** ** [updateSlice], composed *)

Lemma store_ext {A} (s t : StoreOf A) :
  (forall key, s !!! key = t !!! key) -> s = t.
Proof.
  intros H. destruct s, t.
  pose proof (H k_config). pose proof (H k_status).
  pose proof (H k_graph). pose proof (H k_logs).
  unfold lookup_total, store_lookup_total in *. simpl in *. congruence.
Qed.

Lemma spread_spread (x : StoreSlice) (first second : SliceState) :
  spread (spread x first) second = spread x (spread_partial first second).
Proof. by destruct second as [[?|] [?|] [?|]]. Qed.

(** Rewriting a lookup through any number of updates. *)
Ltac slices :=
  repeat first [ rewrite updateSlice_eq | rewrite updateSlice_ne by done ].

(** X2. Two updates of one slice in a row equal one update with the
    second partial spread over the first. So an update applied twice
    is the update applied once, and an update with the empty partial
    returns a store equal to its input. *)
Theorem updateSlice_same_slice (prevState : Store) (key : SliceName) (first second : SliceState) :
  updateSlice (updateSlice prevState key first) key second
    = updateSlice prevState key (spread_partial first second)
  /\ updateSlice (updateSlice prevState key first) key first = updateSlice prevState key first
  /\ updateSlice prevState key no_fields = prevState.
Proof.
  split_and!; apply store_ext; intros k; destruct (decide (k = key)) as [->|Hk]; slices;
    try done.
  - apply spread_spread.
  - by destruct first as [[?|] [?|] [?|]].
  - by destruct (prevState !!! key).
Qed.

(** X3. Updates of two different slices commute. *)
Theorem updateSlice_commutes (prevState : Store) (key1 key2 : SliceName)
    (sliceState1 sliceState2 : SliceState) :
  key1 <> key2 ->
  updateSlice (updateSlice prevState key1 sliceState1) key2 sliceState2
  = updateSlice (updateSlice prevState key2 sliceState2) key1 sliceState1.
Proof.
  intros Hne. apply store_ext. intros k.
  destruct (decide (k = key1)) as [E1|H1], (decide (k = key2)) as [E2|H2];
    subst; try done; by slices.
Qed.

(** ** What a job leaves alone *)

Lemma step_load (w : World) r store key fetchFn force :
  renders w !! r = Some store ->
  step (Load r key fetchFn force) w = (actions store key fetchFn force w).2.
Proof. intros Hr. unfold step. by rewrite (load_runs _ _ _ _ _ _ Hr). Qed.

Lemma step_load_idle (w : World) r key fetchFn force :
  renders w !! r = None -> step (Load r key fetchFn force) w = w.
Proof. intros Hr. unfold step. by rewrite (load_idle _ _ _ _ _ Hr). Qed.

Lemma step_settle (w : World) n key c :
  awaiting w !! n = Some key ->
  step (Settle n c) w =
    {| cell := updateSlice (updateSlice (cell w) key (outcome c)) key (loading_is false);
       past := updateSlice (cell w) key (outcome c) :: cell w :: past w;
       renders := renders w;
       awaiting := delete n (awaiting w);
       calls := calls w |}.
Proof. intros Hn. unfold step. by rewrite (settle_runs _ _ _ _ Hn). Qed.

Lemma step_settle_idle (w : World) n c :
  awaiting w !! n = None -> step (Settle n c) w = w.
Proof. intros Hn. unfold step. by rewrite (settle_idle _ _ _ Hn). Qed.

Lemma actions_frame (store : Store) (w : World) key fetchFn force k :
  k <> key -> cell (actions store key fetchFn force w).2 !!! k = cell w !!! k.
Proof.
  intros Hk. destruct (cached store key force) eqn:Htest.
  { by rewrite (action_skips _ _ _ _ _ Htest). }
  destruct fetchFn as [|E].
  - rewrite (action_starts _ _ _ _ Htest). simpl. by slices.
  - rewrite (action_throws _ _ _ _ _ Htest). simpl. by slices.
Qed.

Lemma actions_calls (store : Store) (w : World) key fetchFn force :
  calls (actions store key fetchFn force w).2 = calls w
  \/ calls (actions store key fetchFn force w).2 = calls w ++ [key].
Proof.
  destruct (cached store key force) eqn:Htest.
  { left. by rewrite (action_skips _ _ _ _ _ Htest). }
  right. destruct fetchFn as [|E].
  - by rewrite (action_starts _ _ _ _ Htest).
  - by rewrite (action_throws _ _ _ _ _ Htest).
Qed.

Lemma actions_renders (store : Store) (w : World) key fetchFn force :
  renders (actions store key fetchFn force w).2 = renders w.
Proof.
  destruct (cached store key force) eqn:Htest.
  { by rewrite (action_skips _ _ _ _ _ Htest). }
  destruct fetchFn as [|E].
  - by rewrite (action_starts _ _ _ _ Htest).
  - by rewrite (action_throws _ _ _ _ _ Htest).
Qed.

(** X4. Each of the four actions passes its own slice name on: it
    leaves the other three slices of the store as they are, and it
    logs at most one invocation, under its own slice name. *)
Theorem actions_bound_to_slices (store : Store) (w : World) (fetchFn : FetchFn) (force : bool) :
  ((forall k, k <> k_logs -> cell (loadLogs store fetchFn force w).2 !!! k = cell w !!! k)
   /\ (calls (loadLogs store fetchFn force w).2 = calls w
       \/ calls (loadLogs store fetchFn force w).2 = calls w ++ [k_logs]))
  /\ ((forall k, k <> k_config -> cell (loadConfig store fetchFn force w).2 !!! k = cell w !!! k)
      /\ (calls (loadConfig store fetchFn force w).2 = calls w
          \/ calls (loadConfig store fetchFn force w).2 = calls w ++ [k_config]))
  /\ ((forall k, k <> k_graph -> cell (loadGraph store fetchFn force w).2 !!! k = cell w !!! k)
      /\ (calls (loadGraph store fetchFn force w).2 = calls w
          \/ calls (loadGraph store fetchFn force w).2 = calls w ++ [k_graph]))
  /\ ((forall k, k <> k_status -> cell (loadStatus store fetchFn force w).2 !!! k = cell w !!! k)
      /\ (calls (loadStatus store fetchFn force w).2 = calls w
          \/ calls (loadStatus store fetchFn force w).2 = calls w ++ [k_status])).
Proof.
  split_and!.
  - intros k Hk. by apply (actions_frame store w k_logs).
  - apply (actions_calls store w k_logs).
  - intros k Hk. by apply (actions_frame store w k_config).
  - apply (actions_calls store w k_config).
  - intros k Hk. by apply (actions_frame store w k_graph).
  - apply (actions_calls store w k_graph).
  - intros k Hk. by apply (actions_frame store w k_status).
  - apply (actions_calls store w k_status).
Qed.

(** X5. A job changes no slice but the one it works on: a call of an
    action or the continuation of a fetch for one slice leaves every
    other slice of the store as it is, and a render leaves them all. *)
Theorem step_frame (w : World) (ev : Event) (k : SliceName) :
  target w ev <> Some k ->
  cell (step ev w) !!! k = cell w !!! k.
Proof.
  intros Ht. destruct ev as [r key fetchFn force| |n c]; simpl in Ht.
  - destruct (renders w !! r) as [store|] eqn:Hr.
    + rewrite (step_load _ _ _ _ _ _ Hr). apply actions_frame. congruence.
    + by rewrite (step_load_idle _ _ _ _ _ Hr).
  - done.
  - destruct (awaiting w !! n) as [key|] eqn:Hn.
    + rewrite (step_settle _ _ _ _ Hn). simpl.
      assert (k <> key) by congruence. by slices.
    + by rewrite (step_settle_idle _ _ _ Hn).
Qed.

(** ** Settlements in either order *)

Lemma delete_delete (l : list SliceName) (n i : nat) :
  n <= i -> delete i (delete n l) = delete n (delete (S i) l).
Proof.
  revert n i. induction l as [|x l IH]; intros n i Hle; [done|].
  destruct n as [|n]; [done|].
  destruct i as [|i]; [lia|]. simpl. f_equal. apply IH. lia.
Qed.

Lemma settle_twice (w : World) n j key1 key2 c1 c2 :
  awaiting w !! n = Some key1 ->
  delete n (awaiting w) !! j = Some key2 ->
  run [Settle n c1; Settle j c2] w =
    let s2 := updateSlice (cell w) key1 (outcome c1) in
    let s3 := updateSlice s2 key1 (loading_is false) in
    let s4 := updateSlice s3 key2 (outcome c2) in
    {| cell := updateSlice s4 key2 (loading_is false);
       past := s4 :: s3 :: s2 :: cell w :: past w;
       renders := renders w;
       awaiting := delete j (delete n (awaiting w));
       calls := calls w |}.
Proof.
  intros H1 H2.
  change (run [Settle n c1; Settle j c2] w) with (step (Settle j c2) (step (Settle n c1) w)).
  rewrite (step_settle _ _ _ _ H1). by erewrite step_settle by exact H2.
Qed.

(** X6. The settlements of two fetches for different slices commute:
    in either order the store, the fetches still in flight and the
    log of invocations end up the same. *)
Theorem settlements_commute (w : World) (n i : nat) (key1 key2 : SliceName)
    (c1 c2 : Completion Resp) :
  n <= i ->
  awaiting w !! n = Some key1 ->
  awaiting w !! S i = Some key2 ->
  key1 <> key2 ->
  let wa := run [Settle n c1; Settle i c2] w in
  let wb := run [Settle (S i) c2; Settle n c1] w in
  cell wa = cell wb /\ awaiting wa = awaiting wb /\ calls wa = calls wb
  /\ renders wa = renders wb.
Proof.
  intros Hle H1 H2 Hne wa wb. subst wa wb.
  rewrite (settle_twice w n i key1 key2)
    by (done || by rewrite list_lookup_delete_ge).
  rewrite (settle_twice w (S i) n key2 key1)
    by (done || (rewrite list_lookup_delete_lt by lia; done)).
  simpl. split_and!; try done.
  - apply store_ext. intros k.
    destruct (decide (k = key1)) as [E1|N1], (decide (k = key2)) as [E2|N2];
      subst; try done; by slices.
  - by apply delete_delete.
Qed.

(** X7. When two fetches for the same slice are in flight, the one
    that settles last decides: of two results the slice keeps the
    later one, and a failure shows as an error beside the data only
    when it settles after the success. *)
Theorem last_settlement_wins (w : World) (n i : nat) (key : SliceName) (V1 V2 : Resp) (E : Err) :
  n <= i ->
  awaiting w !! n = Some key ->
  awaiting w !! S i = Some key ->
  cell (run [Settle n (Normal V1); Settle i (Normal V2)] w) !!! key
    = {| data := Some V2; error := None; loading := false |}
  /\ cell (run [Settle (S i) (Normal V2); Settle n (Normal V1)] w) !!! key
    = {| data := Some V1; error := None; loading := false |}
  /\ cell (run [Settle n (Normal V1); Settle i (Throw E)] w) !!! key
    = {| data := Some V1; error := Some E; loading := false |}
  /\ cell (run [Settle (S i) (Throw E); Settle n (Normal V1)] w) !!! key
    = {| data := Some V1; error := None; loading := false |}.
Proof.
  intros Hle H1 H2.
  assert (Ha : delete n (awaiting w) !! i = Some key) by (by rewrite list_lookup_delete_ge).
  assert (Hb : delete (S i) (awaiting w) !! n = Some key)
    by (rewrite list_lookup_delete_lt by lia; done).
  split_and!.
  - rewrite (settle_twice w n i key key) by done. simpl. by slices.
  - rewrite (settle_twice w (S i) n key key) by done. simpl. by slices.
  - rewrite (settle_twice w n i key key) by done. simpl. by slices.
  - rewrite (settle_twice w (S i) n key key) by done. simpl. by slices.
Qed.

(** X8. With two fetches for one slice in flight, the first
    settlement clears the loading flag while the other fetch is still
    in flight. *)
Theorem loading_cleared_by_first_settlement (w : World) (n m : nat) (key : SliceName)
    (c : Completion Resp) :
  n <> m ->
  awaiting w !! n = Some key ->
  awaiting w !! m = Some key ->
  loading (cell (step (Settle n c) w) !!! key) = false
  /\ key ∈ awaiting (step (Settle n c) w).
Proof.
  intros Hne Hn Hm. rewrite (step_settle _ _ _ _ Hn). simpl. split; [by slices|].
  destruct (decide (m < n)) as [Hlt|Hge].
  - apply (list_elem_of_lookup_2 _ m). by rewrite list_lookup_delete_lt.
  - destruct m as [|m]; [lia|].
    apply (list_elem_of_lookup_2 _ m). rewrite list_lookup_delete_ge by lia. done.
Qed.

(** ** The cache over time *)

Lemma run_cons (ev : Event) (evs : list Event) (w : World) :
  run (ev :: evs) w = run evs (step ev w).
Proof. done. Qed.

Lemma updateSlice_keeps_data (s : Store) key sliceState k :
  has_data sliceState = None \/ (exists res, has_data sliceState = Some (Some res)) ->
  data (s !!! k) <> None ->
  data (updateSlice s key sliceState !!! k) <> None.
Proof.
  intros Hp Hd. destruct (decide (k = key)) as [->|Hk]; slices; [|done].
  destruct Hp as [Hp|[res Hp]]; simpl; by rewrite Hp.
Qed.

Lemma outcome_data (c : Completion Resp) :
  has_data (outcome c) = None \/ (exists res, has_data (outcome c) = Some (Some res)).
Proof. destruct c; [right; by eexists|by left]. Qed.

Lemma step_keeps_data (w : World) (ev : Event) (k : SliceName) :
  data (cell w !!! k) <> None -> data (cell (step ev w) !!! k) <> None.
Proof.
  intros Hd. destruct ev as [r key fetchFn force| |n c].
  - destruct (renders w !! r) as [store|] eqn:Hr.
    2:{ by rewrite (step_load_idle _ _ _ _ _ Hr). }
    rewrite (step_load _ _ _ _ _ _ Hr).
    destruct (cached store key force) eqn:Htest.
    { by rewrite (action_skips _ _ _ _ _ Htest). }
    destruct fetchFn as [|E].
    + rewrite (action_starts _ _ _ _ Htest). simpl.
      apply updateSlice_keeps_data; [by left|done].
    + rewrite (action_throws _ _ _ _ _ Htest). simpl.
      repeat (apply updateSlice_keeps_data; [by left|]). done.
  - done.
  - destruct (awaiting w !! n) as [key|] eqn:Hn.
    2:{ by rewrite (step_settle_idle _ _ _ Hn). }
    rewrite (step_settle _ _ _ _ Hn). simpl.
    apply updateSlice_keeps_data; [by left|].
    apply updateSlice_keeps_data; [apply outcome_data|done].
Qed.

(** X9. The store never forgets: once a slice holds data it holds
    data after every later sequence of calls, renders and settlements,
    failures included. *)
Theorem data_never_cleared (evs : list Event) (w : World) (k : SliceName) :
  data (cell w !!! k) <> None ->
  data (cell (run evs w) !!! k) <> None.
Proof.
  revert w. induction evs as [|ev evs IH]; intros w Hd; [done|].
  rewrite run_cons. apply IH. by apply step_keeps_data.
Qed.

Lemma step_renders (w : World) (ev : Event) :
  renders (step ev w) = match ev with Render => cell w :: renders w | _ => renders w end.
Proof.
  destruct ev as [r key fetchFn force| |n c].
  - destruct (renders w !! r) as [store|] eqn:Hr.
    + rewrite (step_load _ _ _ _ _ _ Hr). apply actions_renders.
    + by rewrite (step_load_idle _ _ _ _ _ Hr).
  - done.
  - destruct (awaiting w !! n) as [key|] eqn:Hn.
    + by rewrite (step_settle _ _ _ _ Hn).
    + by rewrite (step_settle_idle _ _ _ Hn).
Qed.

(** The renders made after a slice has data all see data in it. *)
Lemma later_renders_have_data (evs : list Event) (w : World) (k : SliceName) :
  data (cell w !!! k) <> None ->
  exists new,
    renders (run evs w) = new ++ renders w
    /\ Forall (fun s : Store => data (s !!! k) <> None) new.
Proof.
  revert w. induction evs as [|ev evs IH]; intros w Hd.
  { by exists []. }
  rewrite run_cons.
  destruct (IH (step ev w) (step_keeps_data _ _ _ Hd)) as (new & Hnew & Hall).
  rewrite Hnew, step_renders. destruct ev.
  - by exists new.
  - exists (new ++ [cell w]). split; [by rewrite <- app_assoc|].
    apply Forall_app. split; [done|]. by apply Forall_cons.
  - by exists new.
Qed.

(** X10. Once a slice holds data, an unforced call of its action does
    nothing on any render made since, however many calls, renders and
    settlements have happened in between: the fetch function is not
    invoked again unless forced. *)
Theorem loaded_slice_stays_cached (w : World) (key : SliceName) (evs : list Event) (r : nat)
    (fetchFn : FetchFn) :
  data (cell w !!! key) <> None ->
  r + length (renders w) < length (renders (run evs w)) ->
  step (Load r key fetchFn false) (run evs w) = run evs w.
Proof.
  intros Hd Hr.
  destruct (later_renders_have_data evs w key Hd) as (new & Hnew & Hall).
  rewrite Hnew, length_app in Hr.
  destruct (lookup_lt_is_Some_2 new r) as [store Hstore]; [lia|].
  assert (Hlook : renders (run evs w) !! r = Some store).
  { rewrite Hnew, lookup_app_l by lia. done. }
  rewrite (step_load _ _ _ _ _ _ Hlook), action_skips; [done|].
  pose proof (Forall_lookup_1 _ _ _ _ Hall Hstore) as Hs. simpl in Hs.
  unfold cached. simpl. by destruct (data (store !!! key)).
Qed.

(** X11. Right after a render, an unforced call of the new action
    decides on the live state of the slice: it invokes the fetch
    function when the slice has no data and is not loading, and does
    nothing when the slice has data or a fetch for it has set the
    loading flag. *)
Theorem load_after_render_reads_live_state (w : World) (key : SliceName) (fetchFn : FetchFn) :
  (data (cell w !!! key) = None /\ loading (cell w !!! key) = false ->
   calls (step (Load 0 key fetchFn false) (step Render w)) = calls w ++ [key])
  /\ (data (cell w !!! key) <> None \/ loading (cell w !!! key) = true ->
      step (Load 0 key fetchFn false) (step Render w) = step Render w).
Proof.
  assert (Hlook : renders (step Render w) !! 0 = Some (cell w)) by done.
  rewrite (step_load _ _ _ _ _ _ Hlook). split.
  - intros [Hd Hl].
    assert (Htest : cached (cell w) key false = false)
      by (unfold cached; by rewrite Hd, Hl).
    destruct fetchFn as [|E].
    + by rewrite (action_starts _ _ _ _ Htest).
    + by rewrite (action_throws _ _ _ _ _ Htest).
  - intros Hor. rewrite action_skips; [done|].
    unfold cached. simpl. destruct Hor as [Hd|Hl].
    + by destruct (data (cell w !!! key)).
    + rewrite Hl. apply orb_true_r.
Qed.

(** ** Invocations *)

Lemma step_calls (w : World) (ev : Event) :
  exists more,
    calls (step ev w) = calls w ++ more
    /\ length more <= loads [ev].
Proof.
  assert (Hnone : forall m, exists more, calls w = calls w ++ more /\ length more <= m).
  { intros m. exists []. rewrite app_nil_r. split; [done|simpl; lia]. }
  destruct ev as [r key fetchFn force| |n c].
  - destruct (renders w !! r) as [store|] eqn:Hr.
    + rewrite (step_load _ _ _ _ _ _ Hr).
      destruct (actions_calls store w key fetchFn force) as [->| ->]; [apply Hnone|].
      exists [key]. split; [done|simpl; lia].
    + rewrite (step_load_idle _ _ _ _ _ Hr). apply Hnone.
  - apply Hnone.
  - destruct (awaiting w !! n) as [key|] eqn:Hn.
    + rewrite (step_settle _ _ _ _ Hn). apply Hnone.
    + rewrite (step_settle_idle _ _ _ Hn). apply Hnone.
Qed.

(** X12. Nothing but a call of an action invokes a fetch function:
    over any sequence of events the log of invocations only grows at
    its end, by at most one entry per call of an action, and a
    settlement or a render adds none. There is no retry. *)
Theorem fetches_bounded_by_loads :
  (forall evs w, exists more,
      calls (run evs w) = calls w ++ more /\ length more <= loads evs)
  /\ (forall n c w, calls (step (Settle n c) w) = calls w)
  /\ (forall w, calls (step Render w) = calls w).
Proof.
  split_and!.
  - induction evs as [|ev evs IH]; intros w.
    { exists []. rewrite app_nil_r. split; [done|simpl; lia]. }
    rewrite run_cons.
    destruct (IH (step ev w)) as (more2 & H2 & L2).
    destruct (step_calls w ev) as (more1 & H1 & L1).
    exists (more1 ++ more2). rewrite H2, H1, <- app_assoc. split; [done|].
    rewrite length_app. destruct ev; simpl in *; lia.
  - intros n c w. destruct (step_calls w (Settle n c)) as (more & H & L).
    simpl in L. destruct more; [|simpl in L; lia]. by rewrite H, app_nil_r.
  - done.
Qed.

(** X13. What a slice shows comes from a fetch: in every reachable
    world a slice that has data, has an error, is loading or has a
    fetch in flight is one whose fetch function has been invoked. *)
Theorem slice_state_comes_from_fetch (w : World) (key : SliceName) :
  reachable w ->
  data (cell w !!! key) <> None \/ error (cell w !!! key) <> None
  \/ loading (cell w !!! key) = true \/ key ∈ awaiting w ->
  key ∈ calls w.
Proof.
  intros Hw. revert key.
  apply (reachable_ind'
           (fun w => forall key,
                data (cell w !!! key) <> None \/ error (cell w !!! key) <> None
                \/ loading (cell w !!! key) = true \/ key ∈ awaiting w ->
                key ∈ calls w)); [|clear w Hw|exact Hw].
  { intros key [H|[H|[H|H]]]; [by destruct key..|by apply elem_of_nil in H]. }
  intros w ev _ IH k. destruct ev as [r key fetchFn force| |n c].
  - destruct (renders w !! r) as [store|] eqn:Hr.
    2:{ rewrite (step_load_idle _ _ _ _ _ Hr). apply IH. }
    rewrite (step_load _ _ _ _ _ _ Hr).
    destruct (cached store key force) eqn:Htest.
    { rewrite (action_skips _ _ _ _ _ Htest). apply IH. }
    destruct (decide (k = key)) as [->|Hk].
    { intros _. destruct fetchFn as [|E].
      - rewrite (action_starts _ _ _ _ Htest). simpl. apply elem_of_app. right. by left.
      - rewrite (action_throws _ _ _ _ _ Htest). simpl. apply elem_of_app. right. by left. }
    destruct fetchFn as [|E].
    + rewrite (action_starts _ _ _ _ Htest). simpl. slices. intros H.
      apply elem_of_app. left. apply IH.
      destruct H as [H|[H|[H|H]]]; [by left|by right; left|by right; right; left|].
      apply elem_of_app in H as [H|H%list_elem_of_singleton]; [|done].
      by right; right; right.
    + rewrite (action_throws _ _ _ _ _ Htest). simpl. slices. intros H.
      apply elem_of_app. left. by apply IH.
  - apply IH.
  - destruct (awaiting w !! n) as [key|] eqn:Hn.
    2:{ rewrite (step_settle_idle _ _ _ Hn). apply IH. }
    rewrite (step_settle _ _ _ _ Hn). simpl.
    destruct (decide (k = key)) as [->|Hk].
    { intros _. apply IH. right; right; right. by apply (list_elem_of_lookup_2 _ n). }
    slices. intros H. apply IH.
    destruct H as [H|[H|[H|H]]]; [by left|by right; left|by right; right; left|].
    right; right; right. by apply list_elem_of_delete_inv in H.
Qed.

End Store.

Arguments Normal {Err A} _.
Arguments Throw {Err A} _.

(** ** The theorems at concrete inputs

    Responses and errors are numbers here. *)

(** C2 at the first [loadConfig()] after mount, resolving with 7. *)
Lemma fetch_resolved_slice_witness :
  let w := step (Load 0 k_config Returns false) (@init nat nat) in
  awaiting w !! 0 = Some k_config
  /\ (cell (step (Settle 0 (Normal 7)) w) !!! k_config
        = {| data := Some 7; error := None; loading := false |}
      /\ forall (w0 : @World nat nat) r store force,
           renders w0 !! r = Some store ->
           cached store k_config force = false ->
           cell (run [Load r k_config Returns force; Settle (length (awaiting w0)) (Normal 7)] w0)
             !!! k_config
           = {| data := Some 7; error := None; loading := false |}).
Proof.
  split; [reflexivity|].
  apply (fetch_resolved_slice (step (Load 0 k_config Returns false) init) 0 k_config 7).
  reflexivity.
Defined.

(** C3 at a [loadStatus()] after mount, rejecting with 408. *)
Lemma fetch_rejected_slice_witness :
  let w := step (Load 0 k_status Returns false) (@init nat nat) in
  awaiting w !! 0 = Some k_status
  /\ (cell (step (Settle 0 (Throw 408)) w) !!! k_status
        = {| data := data (cell w !!! k_status); error := Some 408; loading := false |}
      /\ (forall (w0 : @World nat nat) r store force,
            renders w0 !! r = Some store ->
            cached store k_status force = false ->
            cell (run [Load r k_status Returns force; Settle (length (awaiting w0)) (Throw 408)] w0)
              !!! k_status
            = {| data := data (cell w0 !!! k_status); error := Some 408; loading := false |})
      /\ (forall (w0 : @World nat nat) r store force,
            renders w0 !! r = Some store ->
            cached store k_status force = false ->
            cell (step (Load r k_status (Throws 408) force) w0) !!! k_status
            = {| data := data (cell w0 !!! k_status); error := Some 408; loading := false |})).
Proof.
  split; [reflexivity|].
  apply (fetch_rejected_slice (step (Load 0 k_status Returns false) init) 0 k_status 408).
  reflexivity.
Defined.

(** C5 on the heap of the initial state: four slice objects and the
    store object that refers to them. *)
Lemma updateSlice_heap_shares_witness :
  let state : @StoreSlice nat nat := {| data := None; error := None; loading := false |} in
  let refs : StoreOf loc := mkStore 1%positive 2%positive 3%positive 4%positive in
  let h : gmap loc Obj :=
    <[5%positive := StoreObj refs]>
      (<[4%positive := SliceObj state]>
         (<[3%positive := SliceObj state]>
            (<[2%positive := SliceObj state]>
               (<[1%positive := SliceObj state]> ∅)))) in
  h !! 5%positive = Some (StoreObj refs)
  /\ h !! (refs !!! k_graph) = Some (SliceObj state)
  /\ exists newState h' refs',
       updateSlice_heap h 5%positive k_graph (loading_is true) = Some (newState, h')
       /\ h' !! newState = Some (StoreObj refs')
       /\ (forall k, k <> k_graph -> refs' !!! k = refs !!! k)
       /\ (forall l o, h !! l = Some o -> h' !! l = Some o)
       /\ h !! newState = None
       /\ h !! (refs' !!! k_graph) = None
       /\ h' !! (refs' !!! k_graph) = Some (SliceObj (spread state (loading_is true)))
       /\ forall S, read h 5%positive = Some S ->
            read h' 5%positive = Some S
            /\ read h' newState = Some (updateSlice S k_graph (loading_is true)).
Proof.
  intros state refs h.
  split; [reflexivity|]. split; [reflexivity|].
  apply (updateSlice_heap_shares h 5%positive refs k_graph (loading_is true) state);
    reflexivity.
Defined.

(** C7 at the first [loadConfig()] after mount, resolving with 7. *)
Lemma fetch_three_updates_witness :
  let w0 := @init nat nat in
  let w := step (Load 0 k_config Returns false) w0 in
  renders w0 !! 0 = Some (cell w0)
  /\ cached (cell w0) k_config false = false
  /\ awaiting w !! 0 = Some k_config
  /\ exists s1,
       s1 !!! k_config
         = {| data := data (cell w0 !!! k_config); error := error (cell w0 !!! k_config);
              loading := true |}
       /\ (forall k, k <> k_config -> s1 !!! k = cell w0 !!! k)
       /\ history (step (Load 0 k_config Returns false) w0) = s1 :: history w0
       /\ (exists s2 s3,
             history (step (Settle 0 (Normal 7)) w) = s3 :: s2 :: history w
             /\ s2 !!! k_config
                = {| data := Some 7; error := None; loading := loading (cell w !!! k_config) |}
             /\ s3 !!! k_config = {| data := Some 7; error := None; loading := false |}
             /\ forall k, k <> k_config -> s2 !!! k = cell w !!! k /\ s3 !!! k = cell w !!! k)
       /\ (exists s2 s3,
             history (run [Load 0 k_config Returns false; Settle (length (awaiting w0)) (Normal 7)]
                        w0)
               = s3 :: s2 :: s1 :: history w0
             /\ s2 !!! k_config = {| data := Some 7; error := None; loading := true |}
             /\ s3 !!! k_config = {| data := Some 7; error := None; loading := false |}
             /\ forall k, k <> k_config -> s2 !!! k = cell w0 !!! k /\ s3 !!! k = cell w0 !!! k)
       /\ (exists s2 s3,
             history (step (Load 0 k_config (Throws 500) false) w0)
               = s3 :: s2 :: s1 :: history w0
             /\ s2 !!! k_config
                = {| data := data (cell w0 !!! k_config); error := Some 500; loading := true |}
             /\ s3 !!! k_config
                = {| data := data (cell w0 !!! k_config); error := Some 500; loading := false |}
             /\ forall k, k <> k_config -> s2 !!! k = cell w0 !!! k /\ s3 !!! k = cell w0 !!! k).
Proof.
  intros w0 w.
  split; [reflexivity|]. split; [reflexivity|]. split; [reflexivity|].
  apply (fetch_three_updates w0 w 0 0 (cell w0) k_config false (Normal 7) 500);
    reflexivity.
Defined.

(** ** Scenarios *)

(** [loadConfig()] after mount: loading is true while the fetch is
    pending; once it resolves with 1 the slice holds it. *)
Example scenario_load_config :
  let w1 := run [Load 0 k_config Returns false] (@init nat nat) in
  let w2 := run [Load 0 k_config Returns false; Settle 0 (Normal 1)] (@init nat nat) in
  cell w1 !!! k_config = {| data := None; error := None; loading := true |}
  /\ cell w2 !!! k_config = {| data := Some 1; error := None; loading := false |}
  /\ calls w2 = [k_config].
Proof. done. Qed.

(** [loadStatus()] whose fetch rejects. *)
Example scenario_load_status_rejected :
  cell (run [Load 0 k_status Returns false; Settle 0 (Throw 408)] (@init nat nat)) !!! k_status
  = {| data := None; error := Some 408; loading := false |}.
Proof. done. Qed.

(** A settled [loadGraph()], a render, then [loadGraph(true)]: the
    fetch function is invoked again and the slice ends with the second
    result. Without [force] the second call does nothing. *)
Example scenario_forced_reload :
  let first := [Load 0 k_graph Returns false; Settle 0 (Normal 1); Render] in
  let w := run (first ++ [Load 0 k_graph Returns true; Settle 0 (Normal 2)]) (@init nat nat) in
  calls w = [k_graph; k_graph]
  /\ cell w !!! k_graph = {| data := Some 2; error := None; loading := false |}
  /\ run (first ++ [Load 0 k_graph Returns false]) (@init nat nat) = run first (@init nat nat).
Proof. done. Qed.

(** A failed fetch leaves the data of an earlier success in place, and
    the next success clears the error. *)
Example scenario_stale_data_with_error :
  let evs := [Load 0 k_logs Returns false; Settle 0 (Normal 1);
              Load 0 k_logs Returns true; Settle 0 (Throw 500)] in
  cell (run evs (@init nat nat)) !!! k_logs
    = {| data := Some 1; error := Some 500; loading := false |}
  /\ cell (run (evs ++ [Load 0 k_logs Returns true; Settle 0 (Normal 2)]) (@init nat nat))
       !!! k_logs
     = {| data := Some 2; error := None; loading := false |}.
Proof. done. Qed.

(** The actions of an older render keep reading its store: after the
    first fetch has started and React has rendered, a call on the
    first render's [loadConfig] fetches again, a call on the new one
    does not. *)
Example scenario_old_render :
  let evs := [Load 0 k_config Returns false; Render] in
  calls (run (evs ++ [Load 1 k_config Returns false]) (@init nat nat)) = [k_config; k_config]
  /\ calls (run (evs ++ [Load 0 k_config Returns false]) (@init nat nat)) = [k_config].
Proof. done. Qed.

(** ** The further theorems at concrete inputs *)

(** X3 on the initial state. *)
Lemma updateSlice_commutes_witness :
  k_config <> k_status
  /\ updateSlice (updateSlice (@initialState nat nat) k_config (loading_is true))
       k_status (error_is 1)
     = updateSlice (updateSlice initialState k_status (error_is 1))
         k_config (loading_is true).
Proof.
  split; [discriminate|].
  apply (updateSlice_commutes initialState k_config k_status (loading_is true) (error_is 1)).
  discriminate.
Defined.

(** X5 at the first [loadConfig()] after mount, seen from [status]. *)
Lemma step_frame_witness :
  let w := @init nat nat in
  let ev := Load 0 k_config Returns false in
  target w ev <> Some k_status
  /\ cell (step ev w) !!! k_status = cell w !!! k_status.
Proof.
  split; [discriminate|].
  apply (step_frame init (Load 0 k_config Returns false) k_status). discriminate.
Defined.

(** X6 with a config fetch and a status fetch in flight. *)
Lemma settlements_commute_witness :
  let w := run [Load 0 k_config Returns false; Load 0 k_status Returns false] (@init nat nat) in
  let wa := run [Settle 0 (Normal 1); Settle 0 (Throw 2)] w in
  let wb := run [Settle 1 (Throw 2); Settle 0 (Normal 1)] w in
  0 <= 0
  /\ awaiting w !! 0 = Some k_config
  /\ awaiting w !! 1 = Some k_status
  /\ k_config <> k_status
  /\ cell wa = cell wb /\ awaiting wa = awaiting wb /\ calls wa = calls wb
  /\ renders wa = renders wb.
Proof.
  intros w wa wb.
  split; [lia|]. split; [reflexivity|]. split; [reflexivity|]. split; [discriminate|].
  apply (settlements_commute w 0 0 k_config k_status (Normal 1) (Throw 2));
    [lia|reflexivity|reflexivity|discriminate].
Defined.

(** X7 with [loadGraph()] and [loadGraph(true)] both in flight. *)
Lemma last_settlement_wins_witness :
  let w := run [Load 0 k_graph Returns false; Load 0 k_graph Returns true] (@init nat nat) in
  0 <= 0
  /\ awaiting w !! 0 = Some k_graph
  /\ awaiting w !! 1 = Some k_graph
  /\ cell (run [Settle 0 (Normal 1); Settle 0 (Normal 2)] w) !!! k_graph
     = {| data := Some 2; error := None; loading := false |}
  /\ cell (run [Settle 1 (Normal 2); Settle 0 (Normal 1)] w) !!! k_graph
     = {| data := Some 1; error := None; loading := false |}
  /\ cell (run [Settle 0 (Normal 1); Settle 0 (Throw 500)] w) !!! k_graph
     = {| data := Some 1; error := Some 500; loading := false |}
  /\ cell (run [Settle 1 (Throw 500); Settle 0 (Normal 1)] w) !!! k_graph
     = {| data := Some 1; error := None; loading := false |}.
Proof.
  intros w.
  split; [lia|]. split; [reflexivity|]. split; [reflexivity|].
  apply (last_settlement_wins w 0 0 k_graph 1 2 500); [lia|reflexivity|reflexivity].
Defined.

(** X8 in the same world. *)
Lemma loading_cleared_by_first_settlement_witness :
  let w := run [Load 0 k_graph Returns false; Load 0 k_graph Returns true] (@init nat nat) in
  0 <> 1
  /\ awaiting w !! 0 = Some k_graph
  /\ awaiting w !! 1 = Some k_graph
  /\ loading (cell (step (Settle 0 (Normal 1)) w) !!! k_graph) = false
  /\ k_graph ∈ awaiting (step (Settle 0 (Normal 1)) w).
Proof.
  intros w.
  split; [lia|]. split; [reflexivity|]. split; [reflexivity|].
  apply (loading_cleared_by_first_settlement w 0 1 k_graph (Normal 1));
    [lia|reflexivity|reflexivity].
Defined.

(** X9 after a successful [loadLogs()], through a forced reload that
    fails. *)
Lemma data_never_cleared_witness :
  let w := run [Load 0 k_logs Returns false; Settle 0 (Normal 1)] (@init nat nat) in
  let evs := [Load 0 k_logs Returns true; Settle 0 (Throw 500)] in
  data (cell w !!! k_logs) <> None
  /\ data (cell (run evs w) !!! k_logs) <> None.
Proof.
  intros w evs.
  split; [discriminate|].
  apply (data_never_cleared evs w k_logs). discriminate.
Defined.

(** X10 after a successful [loadLogs()], on the older of two later
    renders. *)
Lemma loaded_slice_stays_cached_witness :
  let w := run [Load 0 k_logs Returns false; Settle 0 (Normal 1)] (@init nat nat) in
  let evs := [Render; Load 0 k_status Returns false; Render] in
  data (cell w !!! k_logs) <> None
  /\ 1 + length (renders w) < length (renders (run evs w))
  /\ step (Load 1 k_logs Returns false) (run evs w) = run evs w.
Proof.
  intros w evs.
  split; [discriminate|]. split; [simpl; lia|].
  apply (loaded_slice_stays_cached w k_logs evs 1 Returns); [discriminate|simpl; lia].
Defined.

(** X13 while the first [loadConfig()] is pending. *)
Lemma slice_state_comes_from_fetch_witness :
  let w := run [Load 0 k_config Returns false] (@init nat nat) in
  reachable w
  /\ (data (cell w !!! k_config) <> None \/ error (cell w !!! k_config) <> None
      \/ loading (cell w !!! k_config) = true \/ k_config ∈ awaiting w)
  /\ k_config ∈ calls w.
Proof.
  intros w.
  assert (Hw : reachable w) by (exists [Load 0 k_config Returns false]; reflexivity).
  assert (Hs : data (cell w !!! k_config) <> None \/ error (cell w !!! k_config) <> None
               \/ loading (cell w !!! k_config) = true \/ k_config ∈ awaiting w)
    by (right; right; left; reflexivity).
  split; [exact Hw|]. split; [exact Hs|].
  exact (slice_state_comes_from_fetch w k_config Hw Hs).
Defined.
